(** * The [sys] execution module of Salt: introspection of the loaded functions

    A shallow embedding of [salt/modules/sysmod.py].  The module answers
    queries over two registries of callables keyed by dotted names: the
    execution registry [__salt__] and the registry [st_.states] of the state
    system.  Registries are Python dicts, modelled as [gmap string callable];
    Python sets of names are [gset string]; a [for] loop over a dict is
    [map_fold]; [sorted] is a merge sort for the byte-wise lexicographic
    order of [str]. *)

From Stdlib Require Import Strings.Ascii.
From stdpp Require Import gmap strings list fin_maps fin_sets sorting.

Local Open Scope string_scope.

(** ** Python values *)

(** A registry entry.  The module only ever reads the [__doc__] attribute of
    a callable, which is a string or [None]. *)
Record callable := Callable { __doc__ : option string }.

(** Values that can be passed as keyword arguments. *)
Inductive pyobject :=
| PyNone
| PyInt (z : Z)
| PyStr (s : string).

(** The outcome of a call that may raise. *)
Inductive result (E A : Type) :=
| Ok (a : A)
| Raise (e : E).
Arguments Ok {E A} a.
Arguments Raise {E A} e.

(** A raised exception propagates through the rest of the body. *)
Global Instance result_bind {E} : MBind (result E) := λ A B k r,
  match r with
  | Ok a => k a
  | Raise e => Raise e
  end.

Definition is_ok {E A} (r : result E A) : bool :=
  match r with Ok _ => true | Raise _ => false end.

(** ** [str] methods *)

(** [s.startswith(p)] *)
Fixpoint startswith (s p : string) : bool :=
  match p, s with
  | "", _ => true
  | String _ _, "" => false
  | String c p', String d s' => Ascii.eqb c d && startswith s' p'
  end.

(** [s.endswith(suf)]: [s] is [suf], or the tail of [s] ends with [suf]. *)
Fixpoint endswith (s suf : string) : bool :=
  String.eqb s suf ||
  match s with
  | "" => false
  | String _ s' => endswith s' suf
  end.

(** [s.split(sep)] for a one-character separator. *)
Fixpoint split (s : string) (sep : ascii) : list string :=
  match s with
  | "" => [""]
  | String c s' =>
      if Ascii.eqb c sep then "" :: split s' sep
      else match split s' sep with
           | [] => [String c ""]
           | w :: ws => String c w :: ws
           end
  end.

(** Truth value of a string: [if module:] holds for the non-empty ones. *)
Definition truthy (s : string) : bool := negb (String.eqb s "").

(** [sorted(xs)] on strings. *)
Definition sorted (xs : list string) : list string := merge_sort String.le xs.

(** The keys of a dict, as [sorted] receives them. *)
Definition keys {A} (d : gmap string A) : list string := (map_to_list d).*1.

Section sysmod.

(** Exceptions and the minion options [__opts__]. *)
Context {exn opts : Type}.

(** Modelled from the spec: [salt.utils.doc.strip_rst] is not part of the
    module; it is the documentation normalizer, which rewrites each
    documentation string of the mapping to plain prose and leaves an absent
    one absent. *)
Variable normalize : string → string.

Definition _strip_rst (docs : gmap string (option string))
  : gmap string (option string) :=
  (λ docstring : option string, normalize <$> docstring) <$> docs.

(** The value [doc] reports for a registry entry. *)
Definition documented (f : callable) : option string :=
  normalize <$> __doc__ f.

(** Modelled from the spec: [salt.state.State] is not part of the module;
    it is the state registry provider, built from the options, whose
    construction may fail, and which exposes the registry as [states]. *)
Record State_obj := { states : gmap string callable }.
Variable State : opts → result exn State_obj.

(** [doc], called with the positional arguments [args] *)
Definition doc (__salt__ : gmap string callable) (args : list string)
  : gmap string (option string) :=
  match args with
  | [] =>
      _strip_rst
        (map_fold (λ fun_ f docs, <[fun_ := __doc__ f]> docs) ∅ __salt__)
  | _ =>
      _strip_rst
        (foldl (λ docs module,
           let target_mod :=
             if truthy module then
               if negb (endswith module ".") then module +:+ "." else module
             else "" in
           map_fold (λ fun_ f docs,
             if String.eqb fun_ module || startswith fun_ target_mod
             then <[fun_ := __doc__ f]> docs else docs) docs __salt__)
           ∅ args)
  end.

(** [state_doc], called with the positional arguments [args] *)
Definition state_doc (__opts__ : opts) (args : list string)
  : result exn (gmap string (option string)) :=
  st_ ← State __opts__ ;
  match args with
  | [] =>
      Ok (_strip_rst
        (map_fold (λ fun_ f docs, <[fun_ := __doc__ f]> docs) ∅ (states st_)))
  | _ =>
      Ok (_strip_rst
        (foldl (λ docs module,
           let target_mod :=
             if truthy module then
               if negb (endswith module ".") then module +:+ "." else module
             else "" in
           map_fold (λ fun_ f docs,
             if String.eqb fun_ module || startswith fun_ target_mod
             then <[fun_ := __doc__ f]> docs else docs) docs (states st_))
           ∅ args))
  end.

(** [list_functions], called with the positional arguments [args] and the
    keyword arguments [kwargs] *)
Definition list_functions (__salt__ : gmap string callable)
    (args : list string) (kwargs : gmap string pyobject) : list string :=
  match args with
  | [] => sorted (keys __salt__)
  | _ =>
      sorted (elements
        (foldl (λ (names : gset string) module,
           let module :=
             if truthy module then
               if negb (endswith module ".") then module +:+ "." else module
             else module in
           map_fold (λ func _ (names : gset string),
             if startswith func module then {[func]} ∪ names else names)
             names __salt__)
           ∅ args))
  end.

(** [list_modules()] *)
Definition list_modules (__salt__ : gmap string callable) : list string :=
  sorted (elements
    (map_fold (λ func _ (modules : gset string),
       let comps := split func "."%char in
       if decide (length comps < 2) then modules
       else {[comps !!! 0%nat]} ∪ modules)
       ∅ __salt__)).

(** [reload_modules()] *)
Definition reload_modules : bool := true.

(** [list_state_functions], called with the positional arguments [args]
    and the keyword arguments [kwargs] *)
Definition list_state_functions (__opts__ : opts)
    (args : list string) (kwargs : gmap string pyobject)
  : result exn (list string) :=
  st_ ← State __opts__ ;
  match args with
  | [] => Ok (sorted (keys (states st_)))
  | _ =>
      Ok (sorted (elements
        (foldl (λ (names : gset string) module,
           let module :=
             if truthy module then
               if negb (endswith module ".") then module +:+ "." else module
             else module in
           map_fold (λ func _ (names : gset string),
             if startswith func module then {[func]} ∪ names else names)
             names (states st_))
           ∅ args)))
  end.

(** [list_state_modules()] *)
Definition list_state_modules (__opts__ : opts) : result exn (list string) :=
  st_ ← State __opts__ ;
  Ok (sorted (elements
    (map_fold (λ func _ (modules : gset string),
       let comps := split func "."%char in
       if decide (length comps < 2) then modules
       else {[comps !!! 0%nat]} ∪ modules)
       ∅ (states st_)))).

End sysmod.

(** ** Notions used to state the results *)

(** [c in s] for a character [c]; used to state what [split] returns. *)
Fixpoint contains (s : string) (c : ascii) : bool :=
  match s with
  | "" => false
  | String d s' => Ascii.eqb d c || contains s' c
  end.

(** A sequence in lexicographic order without duplicates. *)
Definition sorted_set (l : list string) : Prop := Sorted String.le l ∧ NoDup l.

(** The test of [doc] and [state_doc] on a registry name [fun_] for the
    argument [module]. *)
Definition doc_matches (module fun_ : string) : bool :=
  String.eqb fun_ module ||
  startswith fun_
    (if truthy module then
       if negb (endswith module ".") then module +:+ "." else module
     else "").

(** The test of [list_functions] and [list_state_functions]. *)
Definition list_matches (module func : string) : bool :=
  startswith func
    (if truthy module then
       if negb (endswith module ".") then module +:+ "." else module
     else module).

(** [m] is the text of the name [n] before its first separator; such an [m]
    exists exactly when [n] contains a separator. *)
Definition module_segment (n m : string) : Prop :=
  contains m "." = false ∧ ∃ rest, n = m +:+ String "." rest.

(** ** Concrete registries *)

Definition undocumented : callable := Callable None.

(** A registry whose only name has a separator. *)
Definition registry_dotted : gmap string callable :=
  {["a.b" := undocumented]}.

(** A registry whose only name is a bare module name. *)
Definition registry_bare : gmap string callable :=
  {["pkg" := undocumented]}.

(** Two modules, one name being a raw prefix of the other. *)
Definition registry_sys : gmap string callable :=
  <["sys.reload" := Callable (Some "Reload")]>
    {["sysctl.get" := Callable (Some "Get")]}.

(** A state provider that cannot be built. *)
Definition State_unavailable (_ : unit) : result string State_obj :=
  Raise "state registry is not initialised".


(** A state provider holding [registry_sys]. *)
Definition State_sys (_ : unit) : result string State_obj :=
  Ok {| states := registry_sys |}.

(** ** Facts about the [str] methods *)

Lemma app_cons c s t : String c s +:+ t = String c (s +:+ t).
Proof. done. Qed.

Lemma app_nil_l s : "" +:+ s = s.
Proof. done. Qed.

Lemma startswith_nil s : startswith s "" = true.
Proof. by destruct s. Qed.

Lemma startswith_spec s p : startswith s p = true ↔ ∃ r, s = p +:+ r.
Proof.
  revert s. induction p as [|c p IH]; intros s; simpl.
  - rewrite startswith_nil. split; [eauto|done].
  - destruct s as [|d s]; simpl.
    + split; [done|]. by intros [r ?].
    + rewrite andb_true_iff, Ascii.eqb_eq, IH. split.
      * intros [-> [r ->]]. by exists r.
      * intros [r Hr]. rewrite app_cons in Hr. simplify_eq. eauto.
Qed.

Lemma endswith_unfold s suf :
  endswith s suf =
  String.eqb s suf ||
  match s with "" => false | String _ s' => endswith s' suf end.
Proof. by destruct s. Qed.

Lemma endswith_spec s suf : endswith s suf = true ↔ ∃ pre, s = pre +:+ suf.
Proof.
  induction s as [|c s IH]; rewrite endswith_unfold.
  - rewrite orb_false_r, String.eqb_eq. split.
    + intros <-. by exists "".
    + intros [[|??] ?]; [done|]. by rewrite app_cons in *.
  - rewrite orb_true_iff, String.eqb_eq, IH. split.
    + intros [<-|[pre ->]]; [by exists ""|by exists (String c pre)].
    + intros [[|d pre] Hpre]; [by left|].
      rewrite app_cons in Hpre. simplify_eq. eauto.
Qed.

Lemma endswith_app s suf : endswith (s +:+ suf) suf = true.
Proof. apply endswith_spec. eauto. Qed.

Lemma app_nil_r s : s +:+ "" = s.
Proof. induction s; [done|]. rewrite app_cons. by f_equal. Qed.

Lemma app_assoc s1 s2 s3 : (s1 +:+ s2) +:+ s3 = s1 +:+ s2 +:+ s3.
Proof. induction s1; [done|]. rewrite !app_cons. by f_equal. Qed.

(** [split] never returns the empty list: [comps[0]] always exists. *)
Lemma split_nonempty s sep : split s sep ≠ [].
Proof.
  destruct s as [|c s]; simpl; [done|].
  destruct (Ascii.eqb c sep); [done|]. by destruct (split s sep).
Qed.

(** A string without the separator is returned whole. *)
Lemma split_no_sep s sep : contains s sep = false → split s sep = [s].
Proof.
  induction s as [|c s IH]; simpl; [done|].
  intros [Hc Hs]%orb_false_iff. rewrite Hc, IH; done.
Qed.

(** The first component is the text before the first separator. *)
Lemma split_app_sep m rest sep :
  contains m sep = false →
  split (m +:+ String sep rest) sep = m :: split rest sep.
Proof.
  induction m as [|c m IH]; intros Hm.
  - rewrite app_nil_l. simpl. by rewrite Ascii.eqb_refl.
  - simpl in Hm. apply orb_false_iff in Hm as [Hc Hm].
    rewrite app_cons. simpl. rewrite Hc, IH; done.
Qed.

Lemma split_cases s sep :
  (contains s sep = false ∧ split s sep = [s]) ∨
  (∃ m rest, s = m +:+ String sep rest ∧ contains m sep = false ∧
             split s sep = m :: split rest sep).
Proof.
  induction s as [|c s IH]; [by left|].
  destruct (Ascii.eqb c sep) eqn:Hc.
  - right. exists "", s. apply Ascii.eqb_eq in Hc as ->.
    rewrite app_nil_l. simpl. by rewrite Ascii.eqb_refl.
  - destruct IH as [[Hs Hsplit]|(m & rest & -> & Hm & Hsplit)].
    + left. simpl. by rewrite Hc, Hs, Hsplit.
    + right. exists (String c m), rest. rewrite app_cons. simpl.
      by rewrite Hc, Hm, Hsplit.
Qed.

(** ** Facts about [sorted] *)

Lemma sorted_perm xs : sorted xs ≡ₚ xs.
Proof. apply merge_sort_Permutation. Qed.

Lemma elem_of_sorted x xs : x ∈ sorted xs ↔ x ∈ xs.
Proof. by rewrite sorted_perm. Qed.

Lemma sorted_sorted_set xs : NoDup xs → sorted_set (sorted xs).
Proof.
  split; [apply (Sorted_merge_sort String.le)|by rewrite sorted_perm].
Qed.

(** Such a sequence is determined by its elements. *)
Lemma sorted_set_unique l1 l2 :
  sorted_set l1 → sorted_set l2 → (∀ x, x ∈ l1 ↔ x ∈ l2) → l1 = l2.
Proof.
  intros [Hs1 Hn1] [Hs2 Hn2] Hel.
  apply (Sorted_unique String.le); [done..|]. by apply NoDup_Permutation.
Qed.

Lemma NoDup_keys {A} (d : gmap string A) : NoDup (keys d).
Proof. apply NoDup_fst_map_to_list. Qed.

Lemma elem_of_keys {A} (d : gmap string A) k : k ∈ keys d ↔ k ∈ dom d.
Proof.
  unfold keys. rewrite list_elem_of_fmap, elem_of_dom. split.
  - intros [[k' x] [-> Hx%elem_of_map_to_list]]. by exists x.
  - intros [x Hx]. exists (k, x). by rewrite elem_of_map_to_list.
Qed.

(** ** The loops *)

(** One pass of [for fun in d] that stores [g (d[fun])] under the selected
    keys. *)
Lemma scan_lookup {A B} (P : string → bool) (g : A → B)
    (d : gmap string A) (docs : gmap string B) n :
  map_fold (λ fun_ f docs, if P fun_ then <[fun_ := g f]> docs else docs)
    docs d !! n =
  match d !! n with
  | Some f => if P n then Some (g f) else docs !! n
  | None => docs !! n
  end.
Proof.
  revert n. apply (map_fold_weak_ind (λ r m, ∀ n,
    r !! n = match m !! n with
             | Some f => if P n then Some (g f) else docs !! n
             | None => docs !! n
             end)).
  - intros n. by rewrite lookup_empty.
  - intros i x m r Hi IH n. destruct (decide (i = n)) as [->|Hne].
    + rewrite lookup_insert_eq. destruct (P n).
      * by rewrite lookup_insert_eq.
      * by rewrite IH, Hi.
    + rewrite (lookup_insert_ne m) by done. rewrite <-IH.
      destruct (P i); [|done]. by rewrite lookup_insert_ne.
Qed.

(** One pass of [for func in d] that adds the selected keys to a set. *)
Lemma scan_elem_of {A} (P : string → bool)
    (d : gmap string A) (names : gset string) n :
  n ∈ map_fold (λ func (_ : A) (names : gset string),
        if P func then {[func]} ∪ names else names) names d ↔
  (n ∈ dom d ∧ P n = true) ∨ n ∈ names.
Proof.
  revert n. apply (map_fold_weak_ind (λ (r : gset string) m, ∀ n,
    n ∈ r ↔ (n ∈ dom m ∧ P n = true) ∨ n ∈ names)).
  - intros n. rewrite dom_empty_L, elem_of_empty. naive_solver.
  - intros i x m r Hi IH n. rewrite dom_insert_L.
    destruct (P i) eqn:HP.
    + rewrite !elem_of_union, IH, !elem_of_singleton. naive_solver.
    + rewrite IH, elem_of_union, elem_of_singleton. split.
      * intros [[??]|?]; auto.
      * intros [[[->|?] ?]|?]; [congruence|auto..].
Qed.

(** ** Selection by a query term *)

Lemma truthy_true s : s ≠ "" → truthy s = true.
Proof. intros Hs. unfold truthy. by apply negb_true_iff, String.eqb_neq. Qed.

Lemma truthy_app_sep s : truthy (s +:+ ".") = true.
Proof. apply truthy_true. by destruct s. Qed.

Lemma doc_matches_bare t n :
  t ≠ "" → endswith t "." = false →
  doc_matches t n = true ↔ n = t ∨ startswith n (t +:+ ".") = true.
Proof.
  intros Ht He. unfold doc_matches.
  by rewrite truthy_true, He, orb_true_iff, String.eqb_eq.
Qed.

Lemma doc_matches_empty n : doc_matches "" n = true.
Proof. unfold doc_matches. simpl. by rewrite startswith_nil, orb_true_r. Qed.

Lemma list_matches_bare t n :
  t ≠ "" → endswith t "." = false →
  list_matches t n = startswith n (t +:+ ".").
Proof. intros Ht He. unfold list_matches. by rewrite truthy_true, He. Qed.

Lemma list_matches_app_sep t n :
  list_matches (t +:+ ".") n = startswith n (t +:+ ".").
Proof. unfold list_matches. by rewrite truthy_app_sep, endswith_app. Qed.

Lemma doc_loop_lookup {A B} (P : string → string → bool) (g : A → B)
    (d : gmap string A) args (docs : gmap string B) n :
  foldl (λ docs module,
    map_fold (λ fun_ f docs,
      if P module fun_ then <[fun_ := g f]> docs else docs) docs d)
    docs args !! n =
  match d !! n with
  | Some f => if existsb (λ module, P module n) args
              then Some (g f) else docs !! n
  | None => docs !! n
  end.
Proof.
  revert docs. induction args as [|module args IH]; intros docs; simpl.
  - by destruct (d !! n).
  - rewrite IH, (scan_lookup (P module)).
    destruct (d !! n); [|done].
    by destruct (P module n), (existsb _ args).
Qed.

Lemma names_loop_elem_of {A} (P : string → string → bool)
    (d : gmap string A) args (names : gset string) n :
  n ∈ foldl (λ (names : gset string) module,
        map_fold (λ func (_ : A) (names : gset string),
          if P module func then {[func]} ∪ names else names) names d)
        names args ↔
  (n ∈ dom d ∧ existsb (λ module, P module n) args = true) ∨ n ∈ names.
Proof.
  revert names. induction args as [|module args IH]; intros names; simpl.
  - naive_solver.
  - rewrite IH, (scan_elem_of (P module)), orb_true_iff. naive_solver.
Qed.

Lemma full_dump_lookup {A B} (g : A → B) (d : gmap string A) n :
  map_fold (λ fun_ f (docs : gmap string B), <[fun_ := g f]> docs) ∅ d !! n =
  g <$> d !! n.
Proof.
  revert n. apply (map_fold_weak_ind (λ (r : gmap string B) m, ∀ n,
    r !! n = g <$> m !! n)).
  - intros n. by rewrite !lookup_empty.
  - intros i x m r _ IH n. destruct (decide (i = n)) as [->|Hne].
    + by rewrite !lookup_insert_eq.
    + by rewrite !lookup_insert_ne.
Qed.

Lemma list_functions_nil_elem_of (R : gmap string callable) kwargs n :
  n ∈ list_functions R [] kwargs ↔ n ∈ dom R.
Proof. unfold list_functions. by rewrite elem_of_sorted, elem_of_keys. Qed.

Lemma list_functions_cons_elem_of (R : gmap string callable)
    module args kwargs n :
  n ∈ list_functions R (module :: args) kwargs ↔
  n ∈ dom R ∧ existsb (λ module, list_matches module n) (module :: args) = true.
Proof.
  unfold list_functions. rewrite elem_of_sorted, elem_of_elements.
  rewrite (names_loop_elem_of list_matches R (module :: args) ∅ n).
  split; [|auto]. by intros [?|?%elem_of_empty].
Qed.

Lemma list_functions_sorted_set (R : gmap string callable) args kwargs :
  sorted_set (list_functions R args kwargs).
Proof.
  destruct args; apply sorted_sorted_set;
    [apply NoDup_keys|apply NoDup_elements].
Qed.

Lemma list_modules_sorted_set (R : gmap string callable) :
  sorted_set (list_modules R).
Proof. apply sorted_sorted_set, NoDup_elements. Qed.

Section results.

Context {exn opts : Type}.
Variable normalize : string → string.
Variable State : opts → result exn State_obj.

Implicit Types (R : gmap string callable) (args : list string).
Implicit Types (kwargs : gmap string pyobject) (n t : string).

Lemma doc_nil_lookup R n :
  doc normalize R [] !! n = documented normalize <$> R !! n.
Proof.
  unfold doc, _strip_rst. rewrite lookup_fmap, full_dump_lookup.
  by destruct (R !! n).
Qed.

Lemma doc_cons_lookup R module args n :
  doc normalize R (module :: args) !! n =
  if existsb (λ module, doc_matches module n) (module :: args)
  then documented normalize <$> R !! n else None.
Proof.
  unfold doc, _strip_rst. rewrite lookup_fmap.
  rewrite (doc_loop_lookup doc_matches __doc__ R (module :: args) ∅ n).
  rewrite lookup_empty. destruct (R !! n); [|by destruct (existsb _ _)].
  by destruct (existsb _ _).
Qed.

Lemma doc_dom_subseteq R args : dom (doc normalize R args) ⊆ dom R.
Proof.
  intros n [v Hv]%elem_of_dom. apply elem_of_dom.
  destruct args as [|module args].
  - rewrite doc_nil_lookup in Hv. by destruct (R !! n).
  - rewrite doc_cons_lookup in Hv.
    destruct (existsb _ _); [|done]. by destruct (R !! n).
Qed.

Lemma doc_single_elem_of_dom R t n :
  n ∈ dom (doc normalize R [t]) ↔ n ∈ dom R ∧ doc_matches t n = true.
Proof.
  rewrite !elem_of_dom, doc_cons_lookup. simpl. rewrite orb_false_r.
  destruct (doc_matches t n).
  - rewrite fmap_is_Some. by split; [|intros [??]].
  - split; [by intros [??]|by intros [??]].
Qed.

(** The empty term selects every entry. *)
Lemma doc_empty_term R : dom (doc normalize R [""]) = dom R.
Proof.
  apply set_eq. intros n.
  rewrite doc_single_elem_of_dom, doc_matches_empty. naive_solver.
Qed.

Lemma state_doc_Ok __opts__ st_ args :
  State __opts__ = Ok st_ →
  state_doc normalize State __opts__ args = Ok (doc normalize (states st_) args).
Proof. intros H. unfold state_doc. rewrite H. by destruct args. Qed.

Lemma list_state_functions_Ok __opts__ st_ args kwargs :
  State __opts__ = Ok st_ →
  list_state_functions State __opts__ args kwargs =
  Ok (list_functions (states st_) args kwargs).
Proof. intros H. unfold list_state_functions. rewrite H. by destruct args. Qed.

Lemma list_state_modules_Ok __opts__ st_ :
  State __opts__ = Ok st_ →
  list_state_modules State __opts__ = Ok (list_modules (states st_)).
Proof. intros H. unfold list_state_modules. by rewrite H. Qed.

End results.

(** ** Module segments *)

Lemma split_module_segment n m :
  module_segment n m ↔
  ¬ length (split n ".") < 2 ∧ m = split n "." !!! 0%nat.
Proof.
  split.
  - intros [Hm [rest ->]]. rewrite split_app_sep by done.
    pose proof (split_nonempty rest ".") as Hne.
    destruct (split rest "."); [done|]. simpl. split; [lia|done].
  - intros [Hlen ->].
    destruct (split_cases n ".") as [[_ Hs]|(m & rest & -> & Hm & Hs)].
    + rewrite Hs in Hlen. simpl in Hlen. lia.
    + rewrite Hs. split; [done|]. by exists rest.
Qed.

Lemma modules_scan_elem_of {A} (d : gmap string A) (modules : gset string) m :
  m ∈ map_fold (λ func (_ : A) (modules : gset string),
        let comps := split func "." in
        if decide (length comps < 2) then modules
        else {[comps !!! 0%nat]} ∪ modules) modules d ↔
  (∃ n, n ∈ dom d ∧ module_segment n m) ∨ m ∈ modules.
Proof.
  revert m. apply (map_fold_weak_ind (λ (r : gset string) d, ∀ m,
    m ∈ r ↔ (∃ n, n ∈ dom d ∧ module_segment n m) ∨ m ∈ modules)).
  - intros m. split; [auto|]. intros [(n & Hn & _)|?]; [|done].
    by rewrite dom_empty_L in Hn.
  - intros i x d' r Hi IH m. cbv zeta.
    assert (∀ n, n ∈ dom (<[i:=x]> d') ↔ n = i ∨ n ∈ dom d') as Hdom.
    { intros n. rewrite dom_insert_L. set_solver. }
    destruct (decide (length (split i ".") < 2)) as [Hlen|Hlen].
    + rewrite IH. split.
      * intros [(n & Hn & Hseg)|?]; [left|by right].
        exists n. rewrite Hdom. auto.
      * intros [(n & [->|Hn]%Hdom & Hseg)|?]; [|left; eauto|by right].
        apply split_module_segment in Hseg as [? _]. done.
    + rewrite elem_of_union, elem_of_singleton, IH. split.
      * intros [->|[(n & Hn & Hseg)|?]]; [left|left|by right].
        -- exists i. rewrite Hdom, split_module_segment. auto.
        -- exists n. rewrite Hdom. auto.
      * intros [(n & [->|Hn]%Hdom & Hseg)|?]; [left|right; left; eauto|auto].
        by apply split_module_segment in Hseg as [_ ->].
Qed.

Lemma list_modules_elem_of (R : gmap string callable) m :
  m ∈ list_modules R ↔ ∃ n, n ∈ dom R ∧ module_segment n m.
Proof.
  unfold list_modules. rewrite elem_of_sorted, elem_of_elements.
  rewrite modules_scan_elem_of. split; [|auto]. by intros [?|?%elem_of_empty].
Qed.

(** ** Properties of [doc] *)

Section doc_properties.

Variable normalize : string → string.

Implicit Types (R : gmap string callable) (n t : string).

(** C1, amended: for a non-empty query term [t] without a trailing
    separator, [doc(t)] selects exactly the registry names equal to [t] or
    starting with [t + "."]; so on every registry the term "sys" selects
    "sys.reload" when it is registered and never selects "sysctl.get". *)
Theorem doc_selects_on_separator_boundary R :
  (∀ t n, t ≠ "" → endswith t "." = false →
     n ∈ dom (doc normalize R [t]) ↔
     n ∈ dom R ∧ (n = t ∨ startswith n (t +:+ ".") = true)) ∧
  ("sys.reload" ∈ dom R → "sys.reload" ∈ dom (doc normalize R ["sys"])) ∧
  "sysctl.get" ∉ dom (doc normalize R ["sys"]).
Proof.
  assert (∀ t n, t ≠ "" → endswith t "." = false →
     n ∈ dom (doc normalize R [t]) ↔
     n ∈ dom R ∧ (n = t ∨ startswith n (t +:+ ".") = true)) as Hsel.
  { intros t n Ht He.
    by rewrite doc_single_elem_of_dom, doc_matches_bare. }
  split; [done|]. split.
  - intros Hin. apply Hsel; [done..|]. split; [done|by right].
  - intros [_ [?|?]]%Hsel; done.
Qed.

(** C3: [doc()] without arguments has exactly the keys of the registry,
    each with the normalized documentation of its entry, and [doc("pkg")]
    is that mapping restricted to the names equal to "pkg" or starting with
    "pkg.". *)
Theorem doc_full_dump_and_restriction R :
  dom (doc normalize R []) = dom R ∧
  (∀ n f, R !! n = Some f →
          doc normalize R [] !! n = Some (normalize <$> __doc__ f)) ∧
  (doc normalize R ["pkg"] =
     filter (λ kv, kv.1 = "pkg" ∨ startswith kv.1 "pkg." = true)
            (doc normalize R [])) ∧
  doc normalize R ["pkg"] ⊆ doc normalize R [].
Proof.
  assert (doc normalize R ["pkg"] =
    filter (λ kv, kv.1 = "pkg" ∨ startswith kv.1 "pkg." = true)
           (doc normalize R [])) as Hpkg.
  { apply map_eq. intros n. apply option_eq. intros v.
    rewrite map_lookup_filter_Some, doc_cons_lookup, doc_nil_lookup.
    simpl. rewrite orb_false_r.
    destruct (doc_matches "pkg" n) eqn:Hm.
    - apply doc_matches_bare in Hm; [|done..]. naive_solver.
    - split; [done|]. intros [_ Hn].
      apply (doc_matches_bare "pkg") in Hn; [|done..]. congruence. }
  split; [|split; [|split]].
  - apply set_eq. intros n.
    by rewrite !elem_of_dom, doc_nil_lookup, fmap_is_Some.
  - intros n f Hf. by rewrite doc_nil_lookup, Hf.
  - done.
  - rewrite Hpkg. apply map_filter_subseteq.
Qed.

(** C4: [doc(a, b)] is the key-wise union of [doc(a)] and [doc(b)]: a name
    is bound to a value in it exactly when one of the single-term results
    binds it to that value. *)
Theorem doc_two_terms_union R a b :
  doc normalize R [a; b] = doc normalize R [a] ∪ doc normalize R [b] ∧
  (∀ n v, doc normalize R [a; b] !! n = Some v ↔
          doc normalize R [a] !! n = Some v ∨
          doc normalize R [b] !! n = Some v).
Proof.
  split.
  - apply map_eq. intros n. rewrite lookup_union, !doc_cons_lookup. simpl.
    rewrite !orb_false_r.
    by destruct (doc_matches a n), (doc_matches b n), (R !! n).
  - intros n v. rewrite !doc_cons_lookup. simpl. rewrite !orb_false_r.
    destruct (doc_matches a n), (doc_matches b n); naive_solver.
Qed.

End doc_properties.

(** ** Properties of the listings *)

(** C2, amended: [list_functions("pkg", "user")] is the lexicographically
    sorted, duplicate-free sequence of the registry names that start with
    "pkg." or "user."; a registry name equal to "pkg" or "user" itself is
    not listed. *)
Theorem list_functions_pkg_user (R : gmap string callable) kwargs :
  sorted_set (list_functions R ["pkg"; "user"] kwargs) ∧
  (∀ n, n ∈ list_functions R ["pkg"; "user"] kwargs ↔
        n ∈ dom R ∧
        (startswith n "pkg." = true ∨ startswith n "user." = true)) ∧
  ("pkg" ∉ list_functions R ["pkg"; "user"] kwargs) ∧
  ("user" ∉ list_functions R ["pkg"; "user"] kwargs).
Proof.
  assert (∀ n, n ∈ list_functions R ["pkg"; "user"] kwargs ↔
        n ∈ dom R ∧
        (startswith n "pkg." = true ∨ startswith n "user." = true)) as Hel.
  { intros n. rewrite list_functions_cons_elem_of. simpl.
    rewrite orb_false_r, orb_true_iff.
    by rewrite !list_matches_bare. }
  split; [apply list_functions_sorted_set|]. split; [done|].
  split; intros [_ [?|?]]%Hel; done.
Qed.

(** C5: [list_modules()] is the lexicographically sorted, duplicate-free
    sequence of the texts before the first separator of the registry names
    that contain a separator; names without one contribute nothing.  On a
    registry with the names "pkg.install", "pkg.remove", "user.info" and
    "orphan" it is ["pkg"; "user"]. *)
Theorem list_modules_segments (R : gmap string callable) :
  sorted_set (list_modules R) ∧
  (∀ m, m ∈ list_modules R ↔ ∃ n, n ∈ dom R ∧ module_segment n m) ∧
  (∀ f1 f2 f3 f4 : callable,
     list_modules (<["pkg.install" := f1]> (<["pkg.remove" := f2]>
                   (<["user.info" := f3]> {["orphan" := f4]}))) =
     ["pkg"; "user"]).
Proof.
  split; [apply list_modules_sorted_set|].
  split; [apply list_modules_elem_of|].
  intros f1 f2 f3 f4. by vm_compute.
Qed.

(** C7: [list_functions()] without arguments is the lexicographically sorted,
    duplicate-free sequence of exactly the registry names; it is a function
    of the names of the registry alone, so a call against a registry with
    the same names, in particular a repeated call against the unchanged
    registry, returns the same sequence. *)
Theorem list_functions_all_names (R : gmap string callable) kwargs :
  sorted_set (list_functions R [] kwargs) ∧
  (∀ n, n ∈ list_functions R [] kwargs ↔ n ∈ dom R) ∧
  (∀ (R' : gmap string callable) kwargs',
     dom R' = dom R →
     list_functions R' [] kwargs' = list_functions R [] kwargs).
Proof.
  split; [apply list_functions_sorted_set|].
  split; [apply list_functions_nil_elem_of|].
  intros R' kwargs' Hdom.
  apply sorted_set_unique; [apply list_functions_sorted_set..|].
  intros n. by rewrite !list_functions_nil_elem_of, Hdom.
Qed.

Lemma list_functions_elem_of_dom (R : gmap string callable) args kwargs n :
  n ∈ list_functions R args kwargs → n ∈ dom R.
Proof.
  destruct args as [|module args].
  - by rewrite list_functions_nil_elem_of.
  - rewrite list_functions_cons_elem_of. by intros [? _].
Qed.

Lemma list_functions_trailing_separator (R : gmap string callable) kwargs t :
  t ≠ "" → endswith t "." = false →
  list_functions R [t] kwargs = list_functions R [t +:+ "."] kwargs.
Proof.
  intros Ht He.
  apply sorted_set_unique; [apply list_functions_sorted_set..|].
  intros n. rewrite !list_functions_cons_elem_of. simpl.
  by rewrite list_matches_bare, list_matches_app_sep.
Qed.

(** ** Properties of the state queries *)

Section state_properties.

Context {exn opts : Type}.
Variable normalize : string → string.
Variable State : opts → result exn State_obj.

Implicit Types (R : gmap string callable) (args : list string).
Implicit Types (kwargs : gmap string pyobject) (n t : string).

Lemma state_doc_Raise __opts__ e args :
  State __opts__ = Raise e → state_doc normalize State __opts__ args = Raise e.
Proof. intros H. unfold state_doc. by rewrite H. Qed.

Lemma list_state_functions_Raise __opts__ e args kwargs :
  State __opts__ = Raise e →
  list_state_functions State __opts__ args kwargs = Raise e.
Proof. intros H. unfold list_state_functions. by rewrite H. Qed.






(** C8: keyword arguments do not change the result of [list_functions] or
    [list_state_functions], and add no failure: [list_functions] always
    returns, and [list_state_functions] returns whenever the state provider
    is built. *)
Theorem garbage_kwargs_ignored R __opts__ args kwargs :
  list_functions R args kwargs = list_functions R args ∅ ∧
  list_functions R args (<["garbage_keyword_arg" := PyInt 123]> kwargs) =
    list_functions R args kwargs ∧
  list_state_functions State __opts__ args kwargs =
    list_state_functions State __opts__ args ∅ ∧
  is_ok (list_state_functions State __opts__ args kwargs) =
    is_ok (State __opts__).
Proof.
  split; [done|]. split; [done|]. split; [done|].
  unfold list_state_functions.
  destruct (State __opts__); [by destruct args|done].
Qed.

(** C9: every name in a result of [doc], [list_functions], [state_doc] or
    [list_state_functions] is a key of the registry the call reads. *)
Theorem result_names_from_registry R __opts__ args kwargs :
  (∀ n, n ∈ dom (doc normalize R args) → n ∈ dom R) ∧
  (∀ n, n ∈ list_functions R args kwargs → n ∈ dom R) ∧
  (∀ docs, state_doc normalize State __opts__ args = Ok docs →
     ∃ st_, State __opts__ = Ok st_ ∧
            ∀ n, n ∈ dom docs → n ∈ dom (states st_)) ∧
  (∀ names, list_state_functions State __opts__ args kwargs = Ok names →
     ∃ st_, State __opts__ = Ok st_ ∧
            ∀ n, n ∈ names → n ∈ dom (states st_)).
Proof.
  split; [apply doc_dom_subseteq|].
  split; [apply list_functions_elem_of_dom|]. split.
  - intros docs Hdocs. destruct (State __opts__) as [st_|e] eqn:HS.
    + rewrite (state_doc_Ok _ _ _ _ _ HS) in Hdocs. simplify_eq.
      exists st_. split; [done|]. apply doc_dom_subseteq.
    + by rewrite (state_doc_Raise _ _ _ HS) in Hdocs.
  - intros names Hnames. destruct (State __opts__) as [st_|e] eqn:HS.
    + rewrite (list_state_functions_Ok _ _ _ _ _ HS) in Hnames. simplify_eq.
      exists st_. split; [done|]. apply list_functions_elem_of_dom.
    + by rewrite (list_state_functions_Raise _ _ _ _ HS) in Hnames.
Qed.

(** C10: for a non-empty term [t] that does not end with the separator,
    [list_functions(t)] equals [list_functions(t + ".")] and
    [list_state_functions(t)] equals [list_state_functions(t + ".")]. *)
Theorem trailing_separator_irrelevant R __opts__ kwargs t :
  t ≠ "" → endswith t "." = false →
  list_functions R [t] kwargs = list_functions R [t +:+ "."] kwargs ∧
  list_state_functions State __opts__ [t] kwargs =
    list_state_functions State __opts__ [t +:+ "."] kwargs.
Proof.
  intros Ht He. split; [by apply list_functions_trailing_separator|].
  destruct (State __opts__) as [st_|e] eqn:HS.
  - rewrite !(list_state_functions_Ok _ _ _ _ _ HS). f_equal.
    by apply list_functions_trailing_separator.
  - by rewrite !(list_state_functions_Raise _ _ _ _ HS).
Qed.

End state_properties.

(** ** The properties at concrete registries *)

(** The empty term has no trailing separator, and [doc("")] selects "a.b",
    which is neither equal to the term nor starts with ".". *)
Lemma doc_empty_term_counterexample :
  endswith "" "." = false ∧
  "a.b" ∈ dom (doc id registry_dotted [""]) ∧
  ¬ ("a.b" = "" ∨ startswith "a.b" ("" +:+ ".") = true).
Proof.
  split; [done|]. split.
  - apply elem_of_dom. by exists None.
  - by intros [?|?].
Qed.

Lemma doc_selects_on_separator_boundary_witness :
  "sys.reload" ∈ dom (doc id registry_sys ["sys"]) ∧
  ("sysctl.get" ∉ dom (doc id registry_sys ["sys"])) ∧
  ("sysctl.get" ∈ dom (doc id registry_sys ["sysctl"]) ↔
   "sysctl.get" ∈ dom registry_sys ∧
   ("sysctl.get" = "sysctl" ∨
    startswith "sysctl.get" ("sysctl" +:+ ".") = true)).
Proof.
  destruct (doc_selects_on_separator_boundary id registry_sys)
    as (Hsel & Hin & Hout).
  split; [|split; [exact Hout|]].
  - apply Hin, elem_of_dom. by exists (Callable (Some "Reload")).
  - apply Hsel; [discriminate|reflexivity].
Defined.

(** The registry has the name "pkg", and [list_functions("pkg", "user")]
    does not list it. *)
Lemma list_functions_bare_name_counterexample :
  "pkg" ∈ dom registry_bare ∧
  "pkg" ∉ list_functions registry_bare ["pkg"; "user"] ∅.
Proof.
  split.
  - apply elem_of_dom. by exists undocumented.
  - assert (list_functions registry_bare ["pkg"; "user"] ∅ = []) as ->
      by (by vm_compute).
    apply not_elem_of_nil.
Qed.

Lemma doc_full_dump_and_restriction_witness :
  registry_sys !! "sys.reload" = Some (Callable (Some "Reload")) ∧
  doc id registry_sys [] !! "sys.reload" = Some (Some "Reload").
Proof.
  split; [reflexivity|].
  destruct (doc_full_dump_and_restriction id registry_sys) as (_ & Hval & _).
  apply (Hval "sys.reload" (Callable (Some "Reload"))). reflexivity.
Defined.



Lemma list_functions_all_names_witness :
  dom (<["sysctl.get" := undocumented]> {["sys.reload" := undocumented]}
       : gmap string callable) = dom registry_sys ∧
  list_functions
    (<["sysctl.get" := undocumented]> {["sys.reload" := undocumented]}) [] ∅ =
  list_functions registry_sys [] (<["garbage_keyword_arg" := PyInt 123]> ∅).
Proof.
  assert (dom (<["sysctl.get" := undocumented]>
                 {["sys.reload" := undocumented]} : gmap string callable)
          = dom registry_sys) as Hdom by (by vm_compute).
  split; [exact Hdom|].
  destruct (list_functions_all_names registry_sys
              (<["garbage_keyword_arg" := PyInt 123]> ∅)) as (_ & _ & Hsame).
  apply Hsame. exact Hdom.
Defined.

Lemma result_names_from_registry_witness :
  state_doc id State_sys () ["sys"] = Ok (doc id registry_sys ["sys"]) ∧
  ∃ st_, State_sys () = Ok st_ ∧
         ∀ n, n ∈ dom (doc id registry_sys ["sys"]) → n ∈ dom (states st_).
Proof.
  split; [reflexivity|].
  destruct (result_names_from_registry id State_sys registry_sys ()
              ["sys"] ∅) as (_ & _ & Hdoc & _).
  apply Hdoc. reflexivity.
Defined.

Lemma trailing_separator_irrelevant_witness :
  "sys" ≠ "" ∧ endswith "sys" "." = false ∧
  list_functions registry_sys ["sys"] ∅ =
    list_functions registry_sys ["sys."] ∅ ∧
  list_state_functions State_sys () ["sys"] ∅ =
    list_state_functions State_sys () ["sys."] ∅.
Proof.
  split; [discriminate|]. split; [reflexivity|].
  apply (trailing_separator_irrelevant State_sys registry_sys () ∅ "sys");
    [discriminate|reflexivity].
Defined.

(** ** Further facts about the selection tests *)

Lemma truthy_false s : truthy s = false → s = "".
Proof.
  unfold truthy. intros H%negb_false_iff. by apply String.eqb_eq.
Qed.

(** The effective prefix of a non-empty term: the term itself when it ends
    with the separator, the term followed by the separator otherwise. *)
Lemma doc_matches_spec t n :
  doc_matches t n = true ↔
  t = "" ∨ n = t ∨
  startswith n (if endswith t "." then t else t +:+ ".") = true.
Proof.
  destruct (decide (t = "")) as [->|Ht].
  - rewrite doc_matches_empty. naive_solver.
  - unfold doc_matches. rewrite (truthy_true _ Ht), orb_true_iff, String.eqb_eq.
    destruct (endswith t "."); naive_solver.
Qed.

Lemma list_matches_spec t n :
  list_matches t n = true ↔
  t = "" ∨ startswith n (if endswith t "." then t else t +:+ ".") = true.
Proof.
  destruct (decide (t = "")) as [->|Ht].
  - unfold list_matches. simpl. rewrite startswith_nil. naive_solver.
  - unfold list_matches. rewrite (truthy_true _ Ht).
    destruct (endswith t "."); naive_solver.
Qed.

(** The test of [doc] is the test of [list_functions] extended with the
    comparison to the whole term. *)
Lemma doc_matches_list_matches t n :
  doc_matches t n = String.eqb n t || list_matches t n.
Proof.
  unfold doc_matches, list_matches. destruct (truthy t) eqn:Ht; [done|].
  apply truthy_false in Ht as ->. by rewrite startswith_nil.
Qed.

Lemma existsb_elem_of {A} (f : A → bool) (l : list A) :
  existsb f l = true ↔ ∃ x, x ∈ l ∧ f x = true.
Proof.
  rewrite existsb_exists. by setoid_rewrite list_elem_of_In.
Qed.

Lemma startswith_refl s : startswith s s = true.
Proof. apply startswith_spec. exists "". by rewrite app_nil_r. Qed.

Lemma startswith_longer t : startswith t (t +:+ ".") = false.
Proof.
  induction t as [|c t IH]; [done|].
  rewrite app_cons. simpl. by rewrite Ascii.eqb_refl, IH.
Qed.

Lemma contains_app_sep pre c rest : contains (pre +:+ String c rest) c = true.
Proof.
  induction pre as [|d pre IH].
  - rewrite app_nil_l. simpl. by rewrite Ascii.eqb_refl.
  - rewrite app_cons. simpl. by rewrite IH, orb_true_r.
Qed.

Lemma no_sep_no_trailing_sep m : contains m "." = false → endswith m "." = false.
Proof.
  intros Hm. destruct (endswith m ".") eqn:He; [|done].
  apply endswith_spec in He as [pre ->].
  by rewrite contains_app_sep in Hm.
Qed.

(** ** More about [doc] *)

Section doc_terms.

Variable normalize : string → string.

Implicit Types (R : gmap string callable) (args : list string).
Implicit Types (n t : string).

Lemma doc_nil_dom R : dom (doc normalize R []) = dom R.
Proof.
  apply set_eq. intros n.
  by rewrite !elem_of_dom, doc_nil_lookup, fmap_is_Some.
Qed.

Lemma doc_terms_lookup R args n :
  args ≠ [] →
  doc normalize R args !! n =
  if existsb (λ module, doc_matches module n) args
  then documented normalize <$> R !! n else None.
Proof. destruct args; [done|]. intros _. apply doc_cons_lookup. Qed.

(** With one or more terms, [doc] binds a name exactly when the name is
    registered and some term selects it: the term is empty, or is the name
    itself, or its effective prefix starts the name; the value is the
    normalized documentation of the entry, whichever term selected it. *)
Theorem doc_terms_selection R args n v :
  args ≠ [] →
  doc normalize R args !! n = Some v ↔
  ∃ f, R !! n = Some f ∧ v = normalize <$> __doc__ f ∧
       ∃ t, t ∈ args ∧
            (t = "" ∨ n = t ∨
             startswith n (if endswith t "." then t else t +:+ ".") = true).
Proof.
  intros Hargs. rewrite doc_terms_lookup by done.
  destruct (existsb _ args) eqn:Hex.
  - apply existsb_elem_of in Hex as (t & Ht & Hm%doc_matches_spec).
    rewrite fmap_Some. unfold documented. naive_solver.
  - split; [done|]. intros (f & _ & _ & t & Ht & Hm%doc_matches_spec).
    assert (existsb (λ module, doc_matches module n) args = true) as Hex'
      by (apply existsb_elem_of; eauto).
    congruence.
Qed.

(** An empty term anywhere among the arguments makes [doc] return the full
    dump, as the call without arguments does. *)
Theorem doc_empty_term_full_dump R args :
  "" ∈ args → doc normalize R args = doc normalize R [].
Proof.
  intros Hin. apply map_eq. intros n.
  rewrite doc_terms_lookup by (by intros ->; apply elem_of_nil in Hin).
  rewrite doc_nil_lookup.
  assert (existsb (λ module, doc_matches module n) args = true) as ->; [|done].
  apply existsb_elem_of. exists "". by rewrite doc_matches_empty.
Qed.

(** Every result of [doc] is a part of the full dump, and adding terms only
    adds bindings. *)
Theorem doc_monotone R args :
  doc normalize R args ⊆ doc normalize R [] ∧
  (∀ args', args ≠ [] → args ⊆ args' →
            doc normalize R args ⊆ doc normalize R args').
Proof.
  split.
  - apply map_subseteq_spec. intros n v.
    destruct args as [|t args]; [done|].
    rewrite doc_cons_lookup, doc_nil_lookup. by destruct (existsb _ _).
  - intros args' Hargs Hsub. apply map_subseteq_spec. intros n v.
    assert (args' ≠ []) as Hargs'.
    { destruct args as [|t args]; [done|]. intros ->.
      by apply (not_elem_of_nil t), Hsub; left. }
    rewrite !doc_terms_lookup by done.
    destruct (existsb _ args) eqn:Hex; [|done].
    apply existsb_elem_of in Hex as (t & Ht & Hm).
    assert (existsb (λ module, doc_matches module n) args' = true) as ->;
      [|done].
    apply existsb_elem_of. eauto.
Qed.

(** For a non-empty term [t] without a trailing separator, [doc(t + ".")]
    is [doc(t)] without the entry named [t] itself: the trailing separator
    turns off the match on the whole name. *)
Theorem doc_trailing_separator R t :
  t ≠ "" → endswith t "." = false →
  doc normalize R [t +:+ "."] = delete t (doc normalize R [t]).
Proof.
  intros Ht He. apply map_eq. intros n.
  rewrite lookup_delete, !doc_cons_lookup. simpl. rewrite !orb_false_r.
  assert (doc_matches (t +:+ ".") n = startswith n (t +:+ ".")) as ->.
  { unfold doc_matches. rewrite truthy_app_sep, endswith_app. simpl.
    destruct (String.eqb_spec n (t +:+ ".")) as [->|]; [|done].
    by rewrite startswith_refl. }
  assert (doc_matches t n = String.eqb n t || startswith n (t +:+ ".")) as ->.
  { unfold doc_matches. by rewrite (truthy_true _ Ht), He. }
  case_decide as Hn.
  - subst n. by rewrite startswith_longer.
  - apply String.eqb_neq in Hn. rewrite String.eqb_sym in Hn. by rewrite Hn.
Qed.

(** Asking [doc] for one registered function, under whose name nothing else
    is registered, returns that function alone. *)
Theorem doc_exact_function R t f :
  R !! t = Some f → t ≠ "" → endswith t "." = false →
  (∀ n, n ∈ dom R → startswith n (t +:+ ".") = false) →
  doc normalize R [t] = {[t := normalize <$> __doc__ f]}.
Proof.
  intros Hf Ht He Hnone. apply map_eq. intros n.
  rewrite doc_cons_lookup. simpl. rewrite orb_false_r.
  destruct (decide (n = t)) as [->|Hn].
  - rewrite lookup_singleton_eq, Hf.
    assert (doc_matches t t = true) as -> by (apply doc_matches_spec; auto).
    done.
  - rewrite lookup_singleton_ne by done.
    destruct (doc_matches t n) eqn:Hm; [|done].
    apply doc_matches_bare in Hm as [?|Hm]; [done| |done..].
    destruct (R !! n) as [g|] eqn:Hg; [|done].
    rewrite Hnone in Hm; [done|]. by apply elem_of_dom.
Qed.

(** The result of [doc] depends on which terms are given, not on their
    order or repetition. *)
Theorem doc_terms_as_set R args args' :
  args ≠ [] → (∀ t, t ∈ args ↔ t ∈ args') →
  doc normalize R args = doc normalize R args'.
Proof.
  intros Hargs Hsame.
  assert (args' ≠ []) as Hargs'.
  { destruct args as [|t args]; [done|]. intros ->.
    by apply (not_elem_of_nil t), Hsame; left. }
  apply map_eq. intros n. rewrite !doc_terms_lookup by done.
  assert (existsb (λ module, doc_matches module n) args =
          existsb (λ module, doc_matches module n) args') as ->; [|done].
  apply eq_true_iff_eq. rewrite !existsb_elem_of. naive_solver.
Qed.

(** The terms compose by union: [doc] on two groups of terms is the union of
    the results for each group. *)
Theorem doc_app_union R args1 args2 :
  args1 ≠ [] → args2 ≠ [] →
  doc normalize R (args1 ++ args2) =
  doc normalize R args1 ∪ doc normalize R args2.
Proof.
  intros H1 H2. apply map_eq. intros n.
  rewrite lookup_union, !doc_terms_lookup by (by destruct args1).
  rewrite existsb_app.
  by destruct (existsb _ args1), (existsb _ args2), (R !! n).
Qed.

End doc_terms.

(** ** More about the listings *)

Lemma list_functions_terms_elem_of (R : gmap string callable) args kwargs n :
  args ≠ [] →
  n ∈ list_functions R args kwargs ↔
  n ∈ dom R ∧
  ∃ t, t ∈ args ∧
       (t = "" ∨
        startswith n (if endswith t "." then t else t +:+ ".") = true).
Proof.
  destruct args as [|t0 args]; [done|]. intros _.
  rewrite list_functions_cons_elem_of, existsb_elem_of.
  by setoid_rewrite list_matches_spec.
Qed.

(** With one or more terms, [list_functions] returns a sorted, duplicate-free
    sequence that lists a name exactly when it is registered and some term
    is empty or has an effective prefix that starts the name. *)
Theorem list_functions_terms_selection (R : gmap string callable)
    args kwargs :
  args ≠ [] →
  sorted_set (list_functions R args kwargs) ∧
  ∀ n, n ∈ list_functions R args kwargs ↔
       n ∈ dom R ∧
       ∃ t, t ∈ args ∧
            (t = "" ∨
             startswith n (if endswith t "." then t else t +:+ ".") = true).
Proof.
  intros Hargs. split; [apply list_functions_sorted_set|].
  intros n. by apply list_functions_terms_elem_of.
Qed.

(** An empty term anywhere among the arguments makes [list_functions] list
    every name, as the call without arguments does. *)
Theorem list_functions_empty_term_all (R : gmap string callable) args kwargs :
  "" ∈ args → list_functions R args kwargs = list_functions R [] kwargs.
Proof.
  intros Hin. apply sorted_set_unique; [apply list_functions_sorted_set..|].
  intros n. rewrite list_functions_nil_elem_of.
  rewrite list_functions_terms_elem_of
    by (by intros ->; apply elem_of_nil in Hin).
  naive_solver.
Qed.

(** The result of [list_functions] depends on which terms are given, not on
    their order or repetition. *)
Theorem list_functions_terms_as_set (R : gmap string callable)
    args args' kwargs :
  args ≠ [] → (∀ t, t ∈ args ↔ t ∈ args') →
  list_functions R args kwargs = list_functions R args' kwargs.
Proof.
  intros Hargs Hsame.
  assert (args' ≠ []) as Hargs'.
  { destruct args as [|t args]; [done|]. intros ->.
    by apply (not_elem_of_nil t), Hsame; left. }
  apply sorted_set_unique; [apply list_functions_sorted_set..|].
  intros n. rewrite !list_functions_terms_elem_of by done. naive_solver.
Qed.

(** The terms compose by union: a name is listed for two groups of terms
    exactly when it is listed for one of the groups. *)
Theorem list_functions_app (R : gmap string callable) args1 args2 kwargs n :
  args1 ≠ [] → args2 ≠ [] →
  n ∈ list_functions R (args1 ++ args2) kwargs ↔
  n ∈ list_functions R args1 kwargs ∨ n ∈ list_functions R args2 kwargs.
Proof.
  intros H1 H2.
  rewrite !list_functions_terms_elem_of by (by destruct args1).
  setoid_rewrite elem_of_app. naive_solver.
Qed.

(** A non-empty name without separator is a module of [list_modules] exactly
    when [list_functions] lists something for it. *)
Theorem list_modules_iff_functions (R : gmap string callable) m kwargs :
  m ≠ "" → contains m "." = false →
  m ∈ list_modules R ↔ list_functions R [m] kwargs ≠ [].
Proof.
  intros Hm Hsep. pose proof (no_sep_no_trailing_sep _ Hsep) as He.
  rewrite list_modules_elem_of. split.
  - intros (n & Hn & _ & rest & ->) Hnil.
    assert (m +:+ String "." rest ∈ list_functions R [m] kwargs) as Hin.
    { rewrite list_functions_cons_elem_of. split; [done|]. simpl.
      rewrite orb_false_r, list_matches_bare by done.
      apply startswith_spec. exists rest. by rewrite app_assoc. }
    rewrite Hnil in Hin. by apply elem_of_nil in Hin.
  - destruct (list_functions R [m] kwargs) as [|n l] eqn:Hl; [done|].
    intros _. assert (n ∈ list_functions R [m] kwargs) as Hin
      by (rewrite Hl; left).
    rewrite list_functions_cons_elem_of in Hin. destruct Hin as [Hn Hmatch].
    simpl in Hmatch. rewrite orb_false_r, list_matches_bare in Hmatch by done.
    apply startswith_spec in Hmatch as [rest ->].
    exists ((m +:+ ".") +:+ rest). split; [done|]. split; [done|].
    exists rest. by rewrite app_assoc.
Qed.

(** The number of names listed never exceeds the size of the registry, the
    full listing has exactly that many names, and there are no more modules
    than names. *)
Theorem listing_lengths (R : gmap string callable) args kwargs :
  length (list_functions R [] kwargs) = size R ∧
  (length (list_functions R args kwargs) ≤ size R)%nat ∧
  (length (list_modules R) ≤ size R)%nat.
Proof.
  assert (length (keys R) = size R) as Hkeys.
  { unfold keys. by rewrite length_fmap, length_map_to_list. }
  split; [|split].
  - unfold list_functions. by rewrite sorted_perm.
  - rewrite <-Hkeys. apply submseteq_length, NoDup_submseteq.
    + apply list_functions_sorted_set.
    + intros n Hn%list_functions_elem_of_dom. by apply elem_of_keys.
  - rewrite <-Hkeys, <-(length_fmap (λ n, split n "." !!! 0%nat) (keys R)).
    apply submseteq_length, NoDup_submseteq.
    + apply list_modules_sorted_set.
    + intros m (n & Hn & Hseg)%list_modules_elem_of.
      apply split_module_segment in Hseg as [_ ->].
      apply list_elem_of_fmap. exists n. by rewrite elem_of_keys.
Qed.

(** ** How the queries relate *)

Section queries_together.

Context {exn opts : Type}.
Variable normalize : string → string.
Variable State : opts → result exn State_obj.

Implicit Types (R : gmap string callable) (args : list string).
Implicit Types (kwargs : gmap string pyobject) (n t m : string).

(** The names [doc] documents are the names [list_functions] lists for the
    same terms, plus the registered names given as terms themselves; without
    terms, the listing is the sorted keys of the documentation. *)
Theorem doc_names_and_list_functions R args kwargs :
  list_functions R [] kwargs = sorted (keys (doc normalize R [])) ∧
  (∀ n, args ≠ [] →
        n ∈ dom (doc normalize R args) ↔
        n ∈ list_functions R args kwargs ∨ (n ∈ dom R ∧ n ∈ args)).
Proof.
  split.
  - apply sorted_set_unique;
      [apply list_functions_sorted_set|apply sorted_sorted_set, NoDup_keys|].
    intros n. by rewrite list_functions_nil_elem_of, elem_of_sorted,
      elem_of_keys, doc_nil_dom.
  - intros n Hargs. destruct args as [|t0 args]; [done|].
    rewrite list_functions_cons_elem_of, elem_of_dom, doc_cons_lookup.
    rewrite <-(not_false_iff_true (existsb (λ module, list_matches module n) _)).
    destruct (existsb (λ module, doc_matches module n) (t0 :: args)) eqn:Hd.
    + rewrite fmap_is_Some, <-elem_of_dom.
      apply existsb_elem_of in Hd as (t & Ht & Hm).
      rewrite doc_matches_list_matches in Hm.
      apply orb_true_iff in Hm as [->%String.eqb_eq|Hm].
      * naive_solver.
      * assert (existsb (λ module, list_matches module n) (t0 :: args) = true)
          as -> by (apply existsb_elem_of; eauto).
        naive_solver.
    + split; [by intros [??]|]. intros [[_ Hl]|[_ Hin]].
      * destruct (existsb (λ module, list_matches module n) (t0 :: args))
          eqn:Hl'; [|done].
        apply existsb_elem_of in Hl' as (t & Ht & Hm).
        assert (existsb (λ module, doc_matches module n) (t0 :: args) = true)
          as Hd'; [|congruence].
        apply existsb_elem_of. exists t. split; [done|].
        by rewrite doc_matches_list_matches, Hm, orb_true_r.
      * assert (existsb (λ module, doc_matches module n) (t0 :: args) = true)
          as Hd'; [|congruence].
        apply existsb_elem_of. exists n. split; [done|].
        by rewrite doc_matches_list_matches, String.eqb_refl.
Qed.

(** A registered name with a non-empty module segment is found under its
    module: [list_modules] lists the module, and [list_functions] and [doc]
    called with the module return the name. *)
Theorem name_found_under_module R n m kwargs :
  n ∈ dom R → module_segment n m → m ≠ "" →
  m ∈ list_modules R ∧
  n ∈ list_functions R [m] kwargs ∧
  n ∈ dom (doc normalize R [m]).
Proof.
  intros Hn Hseg Hm. pose proof Hseg as [Hsep [rest ->]].
  pose proof (no_sep_no_trailing_sep _ Hsep) as He.
  assert (startswith (m +:+ String "." rest) (m +:+ ".") = true) as Hpre.
  { apply startswith_spec. exists rest. by rewrite app_assoc. }
  split; [|split].
  - apply list_modules_elem_of. eauto.
  - rewrite list_functions_cons_elem_of. split; [done|]. simpl.
    by rewrite orb_false_r, list_matches_bare.
  - rewrite doc_single_elem_of_dom. split; [done|].
    apply doc_matches_bare; auto.
Qed.

(** On an empty registry every query returns an empty result, whatever the
    terms. *)
Theorem empty_registry args kwargs :
  doc normalize ∅ args = ∅ ∧
  list_functions ∅ args kwargs = [] ∧
  list_modules ∅ = [].
Proof.
  split; [|split].
  - apply map_eq. intros n. rewrite lookup_empty.
    apply eq_None_not_Some. intros Hn%elem_of_dom%doc_dom_subseteq.
    by rewrite dom_empty_L in Hn.
  - destruct (list_functions ∅ args kwargs) as [|n l] eqn:Hl; [done|].
    assert (n ∈ dom (∅ : gmap string callable)) as Hn.
    { apply (list_functions_elem_of_dom _ args kwargs). rewrite Hl. left. }
    by rewrite dom_empty_L in Hn.
  - by vm_compute.
Qed.

(** When the state provider is built, [list_state_modules] returns the
    sorted, duplicate-free sequence of the module segments of the state
    names, none of which contains a separator. *)
Theorem list_state_modules_segments __opts__ st_ :
  State __opts__ = Ok st_ →
  ∃ modules,
    list_state_modules State __opts__ = Ok modules ∧
    sorted_set modules ∧
    (∀ m, m ∈ modules ↔ ∃ n, n ∈ dom (states st_) ∧ module_segment n m) ∧
    (∀ m, m ∈ modules → contains m "." = false).
Proof.
  intros HS. exists (list_modules (states st_)).
  split; [by apply list_state_modules_Ok|].
  split; [apply list_modules_sorted_set|].
  split; [apply list_modules_elem_of|].
  by intros m (n & _ & ? & _)%list_modules_elem_of.
Qed.

(** When the state provider is built, the state queries return what the
    execution queries return on the registry [st_.states]; a state query
    succeeds exactly when the provider is built. *)
Theorem state_queries_as_execution_queries __opts__ args kwargs :
  (∀ st_, State __opts__ = Ok st_ →
     state_doc normalize State __opts__ args =
       Ok (doc normalize (states st_) args) ∧
     list_state_functions State __opts__ args kwargs =
       Ok (list_functions (states st_) args kwargs) ∧
     list_state_modules State __opts__ = Ok (list_modules (states st_))) ∧
  is_ok (state_doc normalize State __opts__ args) = is_ok (State __opts__) ∧
  is_ok (list_state_modules State __opts__) = is_ok (State __opts__).
Proof.
  split; [|split].
  - intros st_ HS.
    by rewrite (state_doc_Ok _ _ _ _ _ HS),
      (list_state_functions_Ok _ _ _ _ _ HS), (list_state_modules_Ok _ _ _ HS).
  - unfold state_doc. destruct (State __opts__); [by destruct args|done].
  - unfold list_state_modules. by destruct (State __opts__).
Qed.

End queries_together.

(** ** The further properties at concrete registries *)

Lemma sys_reload_registered : "sys.reload" ∈ dom registry_sys.
Proof. apply elem_of_dom. by exists (Callable (Some "Reload")). Qed.

Lemma sys_terms_as_set t :
  t ∈ ["sys"; "sysctl"] ↔ t ∈ ["sysctl"; "sys"; "sys"].
Proof. rewrite !elem_of_cons, !elem_of_nil. tauto. Qed.

Lemma doc_terms_selection_witness :
  ["sys"] ≠ [] ∧
  (doc id registry_sys ["sys"] !! "sys.reload" = Some (Some "Reload") ↔
   ∃ f, registry_sys !! "sys.reload" = Some f ∧
        Some "Reload" = id <$> __doc__ f ∧
        ∃ t, t ∈ ["sys"] ∧
             (t = "" ∨ "sys.reload" = t ∨
              startswith "sys.reload"
                (if endswith t "." then t else t +:+ ".") = true)).
Proof. split; [done|]. by apply doc_terms_selection. Defined.

Lemma doc_empty_term_full_dump_witness :
  "" ∈ ["sys"; ""] ∧
  doc id registry_sys ["sys"; ""] = doc id registry_sys [].
Proof.
  assert ("" ∈ ["sys"; ""]) as Hin
    by (apply elem_of_cons; right; apply elem_of_cons; by left).
  split; [done|]. by apply doc_empty_term_full_dump.
Defined.

Lemma doc_monotone_witness :
  ["sys"] ≠ [] ∧ ["sys"] ⊆ ["sysctl"; "sys"] ∧
  doc id registry_sys ["sys"] ⊆ doc id registry_sys ["sysctl"; "sys"].
Proof.
  assert (["sys"] ⊆ ["sysctl"; "sys"]) as Hsub.
  { intros t ->%list_elem_of_singleton.
    apply elem_of_cons; right; apply elem_of_cons; by left. }
  split; [done|]. split; [done|].
  destruct (doc_monotone id registry_sys ["sys"]) as [_ Hmono].
  by apply Hmono.
Defined.

Lemma doc_trailing_separator_witness :
  "sys" ≠ "" ∧ endswith "sys" "." = false ∧
  doc id registry_sys ["sys."] = delete "sys" (doc id registry_sys ["sys"]).
Proof.
  split; [done|]. split; [done|].
  by apply (doc_trailing_separator id registry_sys "sys").
Defined.

Lemma doc_exact_function_witness :
  registry_sys !! "sys.reload" = Some (Callable (Some "Reload")) ∧
  (∀ n, n ∈ dom registry_sys → startswith n "sys.reload." = false) ∧
  doc id registry_sys ["sys.reload"] = {["sys.reload" := Some "Reload"]}.
Proof.
  assert (∀ n, n ∈ dom registry_sys → startswith n "sys.reload." = false)
    as Hnone.
  { intros n. unfold registry_sys.
    rewrite dom_insert_L, dom_singleton_L, elem_of_union, !elem_of_singleton.
    by intros [-> | ->]. }
  split; [done|]. split; [done|].
  by apply (doc_exact_function id registry_sys "sys.reload"
              (Callable (Some "Reload"))).
Defined.

Lemma doc_terms_as_set_witness :
  doc id registry_sys ["sys"; "sysctl"] =
  doc id registry_sys ["sysctl"; "sys"; "sys"].
Proof. apply doc_terms_as_set; [done|apply sys_terms_as_set]. Defined.

Lemma doc_app_union_witness :
  doc id registry_sys (["sys"] ++ ["sysctl"]) =
  doc id registry_sys ["sys"] ∪ doc id registry_sys ["sysctl"].
Proof. by apply doc_app_union. Defined.

Lemma list_functions_terms_selection_witness :
  sorted_set (list_functions registry_sys ["sys"] ∅) ∧
  ∀ n, n ∈ list_functions registry_sys ["sys"] ∅ ↔
       n ∈ dom registry_sys ∧
       ∃ t, t ∈ ["sys"] ∧
            (t = "" ∨
             startswith n (if endswith t "." then t else t +:+ ".") = true).
Proof. by apply list_functions_terms_selection. Defined.

Lemma list_functions_empty_term_all_witness :
  list_functions registry_sys ["sys"; ""] ∅ = list_functions registry_sys [] ∅.
Proof.
  apply list_functions_empty_term_all.
  apply elem_of_cons; right; apply elem_of_cons; by left.
Defined.

Lemma list_functions_terms_as_set_witness :
  list_functions registry_sys ["sys"; "sysctl"] ∅ =
  list_functions registry_sys ["sysctl"; "sys"; "sys"] ∅.
Proof.
  apply list_functions_terms_as_set; [done|apply sys_terms_as_set].
Defined.

Lemma list_functions_app_witness :
  "sys.reload" ∈ list_functions registry_sys (["sysctl"] ++ ["sys"]) ∅ ↔
  "sys.reload" ∈ list_functions registry_sys ["sysctl"] ∅ ∨
  "sys.reload" ∈ list_functions registry_sys ["sys"] ∅.
Proof. by apply list_functions_app. Defined.

Lemma list_modules_iff_functions_witness :
  "sys" ∈ list_modules registry_sys ↔
  list_functions registry_sys ["sys"] ∅ ≠ [].
Proof. by apply list_modules_iff_functions. Defined.

Lemma doc_names_and_list_functions_witness :
  "sys.reload" ∈ dom (doc id registry_sys ["sys"]) ↔
  "sys.reload" ∈ list_functions registry_sys ["sys"] ∅ ∨
  ("sys.reload" ∈ dom registry_sys ∧ "sys.reload" ∈ ["sys"]).
Proof.
  destruct (doc_names_and_list_functions id registry_sys ["sys"] ∅)
    as [_ Hnames].
  by apply Hnames.
Defined.

Lemma name_found_under_module_witness :
  module_segment "sys.reload" "sys" ∧
  "sys" ∈ list_modules registry_sys ∧
  "sys.reload" ∈ list_functions registry_sys ["sys"] ∅ ∧
  "sys.reload" ∈ dom (doc id registry_sys ["sys"]).
Proof.
  assert (module_segment "sys.reload" "sys") as Hseg.
  { split; [done|]. by exists "reload". }
  split; [done|].
  apply name_found_under_module; [apply sys_reload_registered|done..].
Defined.

Lemma list_state_modules_segments_witness :
  ∃ modules,
    list_state_modules State_sys () = Ok modules ∧
    sorted_set modules ∧
    (∀ m, m ∈ modules ↔
          ∃ n, n ∈ dom registry_sys ∧ module_segment n m) ∧
    (∀ m, m ∈ modules → contains m "." = false).
Proof.
  by apply (list_state_modules_segments State_sys ()
              {| states := registry_sys |}).
Defined.

Lemma state_queries_as_execution_queries_witness :
  state_doc id State_sys () ["sys"] = Ok (doc id registry_sys ["sys"]) ∧
  list_state_functions State_sys () ["sys"] ∅ =
    Ok (list_functions registry_sys ["sys"] ∅) ∧
  list_state_modules State_sys () = Ok (list_modules registry_sys).
Proof.
  destruct (state_queries_as_execution_queries id State_sys () ["sys"] ∅)
    as [Hsame _].
  by apply (Hsame {| states := registry_sys |}).
Defined.
